(** * myougiden: the search engine of the dictionary lookup tool

    A shallow embedding of [myougiden.py] and the properties of its
    pattern cache, predicate builder, field search, guess search and
    entry fetcher.

    Python [str] values are modelled by [string], read as the UTF-8
    encoding of the text; concatenation commutes with that encoding, and
    every byte of a multi-byte character is above 127, so a test on the
    ASCII range sees the same characters on both sides.

    The program is stateful: a module-level dictionary of compiled
    patterns, one database connection with its cursor, and the terminal.
    That state is threaded explicitly, and a Python exception is a
    result carrying the name of the exception class. *)

From stdpp Require Import base gmap strings list.
From Stdlib Require Import ZArith Lia Ascii.

(** ** Values *)

(** A value read from, or bound into, an SQL statement. *)
Inductive sqlval : Type :=
| VInt (z : Z)
| VText (s : string).

(** A result row is a tuple of column values. *)
Definition row : Type := list sqlval.

(** What [guess_search] hands back: a list, or Python's [None]. *)
Inductive pyvalue : Type :=
| PyNone
| PyList (l : list sqlval).

(** A compiled pattern object.  [obj_id] is the identity of the object
    ([is] in Python); the other two fields are what it was compiled
    from. *)
Record pattern_obj : Type := Pattern {
  obj_id : nat;
  obj_pattern : string;
  obj_flags : Z
}.

(** The dictionary file: [entries(ent_seq)], and the three child tables
    [kanjis(ent_seq, kanji)], [readings(ent_seq, reading)] and
    [senses(ent_seq, sense)], rows in storage order. *)
Record database : Type := Database {
  entries : list Z;
  kanjis : list (Z * string);
  readings : list (Z * string);
  senses : list (Z * string)
}.

(** Which Python function [con.create_function('regexp', 2, _)] installed. *)
Inductive hook : Type :=
| hook_regexp_sensitive
| hook_regexp_insensitive.

(** The three shapes of SQL text the program sends to [cur.execute],
    with the parameter bound to [?]:
    - [PRAGMA case_sensitive_like = 1;] or [= 0;]
    - [SELECT column FROM table WHERE ent_seq = ?;]
    - [SELECT ent_seq FROM entries NATURAL INNER JOIN table
       WHERE table.column operator ?;] *)
Inductive statement : Type :=
| Pragma_case_sensitive_like (on : bool)
| Select_child (column table : string) (ent_seq : sqlval)
| Select_join (table column operator : string) (query : string).

(** ** The state of the running process *)

Record process : Type := Process {
  regexp_store : gmap string pattern_obj; (* the module global *)
  allocated : nat;                        (* pattern objects created so far *)
  db : database;                          (* the file at PATHS['database'] *)
  con_regexp : option hook;               (* SQL function [regexp], if any *)
  con_case_sensitive_like : bool;         (* the connection's pragma *)
  cur_rows : list row;                    (* rows the cursor has not handed out *)
  executed : list statement;              (* every statement the cursor ran *)
  stdout : list string                    (* lines printed *)
}.

Definition with_regexp_store (m : gmap string pattern_obj) (st : process) : process :=
  Process m (allocated st) (db st) (con_regexp st)
          (con_case_sensitive_like st) (cur_rows st) (executed st) (stdout st).

Definition with_allocated (n : nat) (st : process) : process :=
  Process (regexp_store st) n (db st) (con_regexp st)
          (con_case_sensitive_like st) (cur_rows st) (executed st) (stdout st).

Definition with_con_regexp (h : option hook) (st : process) : process :=
  Process (regexp_store st) (allocated st) (db st) h
          (con_case_sensitive_like st) (cur_rows st) (executed st) (stdout st).

Definition with_case_sensitive_like (b : bool) (st : process) : process :=
  Process (regexp_store st) (allocated st) (db st) (con_regexp st)
          b (cur_rows st) (executed st) (stdout st).

Definition with_cur_rows (rows : list row) (st : process) : process :=
  Process (regexp_store st) (allocated st) (db st) (con_regexp st)
          (con_case_sensitive_like st) rows (executed st) (stdout st).

Definition with_executed (log : list statement) (st : process) : process :=
  Process (regexp_store st) (allocated st) (db st) (con_regexp st)
          (con_case_sensitive_like st) (cur_rows st) log (stdout st).

Definition with_stdout (out : list string) (st : process) : process :=
  Process (regexp_store st) (allocated st) (db st) (con_regexp st)
          (con_case_sensitive_like st) (cur_rows st) (executed st) out.

(** The process right after the module is loaded: [regexp_store = {}],
    no connection yet, over a given dictionary file. *)
Definition fresh_process (d : database) : process :=
  Process ∅ 0 d None false [] [] [].

(** ** Results and the monad of Python code *)

Inductive result (A : Type) : Type :=
| Ok (a : A)
| Raise (cls : string).
Arguments Ok {A} a.
Arguments Raise {A} cls.

Definition M (A : Type) : Type := process → result A * process.

#[global] Instance M_ret : MRet M := λ A a st, (Ok a, st).

#[global] Instance M_bind : MBind M := λ A B f m st,
  match m st with
  | (Ok a, st') => f a st'
  | (Raise cls, st') => (Raise cls, st')
  end.

Definition raise {A : Type} (cls : string) : M A := λ st, (Raise cls, st).

Definition gets {A : Type} (f : process → A) : M A := λ st, (Ok (f st), st).

Definition modify (f : process → process) : M unit := λ st, (Ok tt, f st).

(** A pure computation that may raise, run inside [M]. *)
Definition lift {A : Type} (r : result A) : M A := λ st, (r, st).

(** ** The libraries the program calls

    Python's [re] and SQLite's [LIKE] are not part of the program; the
    development is parametric in what they answer. *)
Class Engine : Type := {
  (** [re.compile(pattern, flags)] accepts the pattern. *)
  re_accepts : string → Z → bool;
  (** [re.compile(pattern, flags).search(text) is not None]. *)
  re_search : string → Z → string → bool;
  (** [text LIKE pattern] under [PRAGMA case_sensitive_like = cs]. *)
  sql_like : bool → string → string → bool
}.

(** [re.U] and [re.I]. *)
Definition re_U : Z := 32.
Definition re_I : Z := 2.

(** The exception classes that occur. *)
Definition re_error : string := "re.error".
Definition OperationalError : string := "sqlite3.OperationalError".
Definition UnboundLocalError : string := "UnboundLocalError".
Definition TypeError : string := "TypeError".
Definition IndexError : string := "IndexError".

Section Program.
Context {E : Engine}.

(** ** Pattern cache *)

(** [re.compile]: a new pattern object, or [re.error]. *)
Definition re_compile (pattern : string) (flags : Z) : M pattern_obj :=
  if re_accepts pattern flags then
    n ← gets allocated;
    _ ← modify (with_allocated (S n));
    mret (Pattern n pattern flags)
  else raise re_error.

Definition get_regex (pattern : string) (flags : Z) : M pattern_obj :=
  store ← gets regexp_store;
  match store !! pattern with
  | Some comp => mret comp
  | None =>
      comp ← re_compile pattern (Z.lor re_U flags);
      _ ← modify (λ st, with_regexp_store (<[pattern := comp]> (regexp_store st)) st);
      mret comp
  end.

(** [reg.search(field) is not None] *)
Definition search_is_not_None (reg : pattern_obj) (field : string) : bool :=
  re_search (obj_pattern reg) (obj_flags reg) field.

Definition regexp_sensitive (pattern field : string) : M bool :=
  reg ← get_regex pattern 0;
  mret (search_is_not_None reg field).

Definition regexp_insensitive (pattern field : string) : M bool :=
  reg ← get_regex pattern re_I;
  mret (search_is_not_None reg field).

(** ** The storage engine, as far as the program uses it *)

(** The rows of a child table, when [table] and [column] name one. *)
Definition child_table (d : database) (table column : string)
  : option (list (Z * string)) :=
  if decide (table = "kanjis" ∧ column = "kanji") then Some (kanjis d)
  else if decide (table = "readings" ∧ column = "reading") then Some (readings d)
  else if decide (table = "senses" ∧ column = "sense") then Some (senses d)
  else None.

(** [WHERE ent_seq = ?]: the column has no declared type, so a bound
    text never equals a stored integer. *)
Definition ent_seq_is (key : sqlval) (r : Z * string) : bool :=
  match key with
  | VInt z => bool_decide (r.1 = z)
  | VText _ => false
  end.

(** [entries NATURAL INNER JOIN child]: the pairs that agree on
    [ent_seq], entries in the outer loop. *)
Definition natural_join (es : list Z) (child : list (Z * string))
  : list (Z * string) :=
  e ← es; filter (λ r, r.1 = e) child.

(** SQLite calling the Python function registered as [regexp]: an
    exception inside it surfaces as an [OperationalError]. *)
Definition call_regexp (h : hook) (pattern field : string) : M bool := λ st,
  let f := match h with
           | hook_regexp_sensitive => regexp_sensitive
           | hook_regexp_insensitive => regexp_insensitive
           end in
  match f pattern field st with
  | (Ok b, st') => (Ok b, st')
  | (Raise _, st') => (Raise OperationalError, st')
  end.

(** [value operator ?] with [pattern] bound to the parameter. *)
Definition where_matches (operator pattern value : string) : M bool :=
  if decide (operator = "LIKE") then
    cs ← gets con_case_sensitive_like;
    mret (sql_like cs pattern value)
  else if decide (operator = "REGEXP") then
    h ← gets con_regexp;
    match h with
    | Some h => call_regexp h pattern value
    | None => raise OperationalError
    end
  else raise OperationalError.

Fixpoint select_matching (operator pattern : string)
    (joined : list (Z * string)) : M (list row) :=
  match joined with
  | [] => mret []
  | r :: rest =>
      b ← where_matches operator pattern r.2;
      out ← select_matching operator pattern rest;
      mret (if b : bool then [VInt r.1] :: out else out)
  end.

(** What a statement does once SQLite runs it. *)
Definition run_statement (stmt : statement) : M unit :=
  match stmt with
  | Pragma_case_sensitive_like on => modify (with_case_sensitive_like on)
  | Select_child column table ent_seq =>
      d ← gets db;
      match child_table d table column with
      | None => raise OperationalError
      | Some child =>
          modify (with_cur_rows
                    ((λ r, [VText r.2]) <$> filter (λ r, ent_seq_is ent_seq r = true) child))
      end
  | Select_join table column operator query =>
      d ← gets db;
      match child_table d table column with
      | None => raise OperationalError
      | Some child =>
          rows ← select_matching operator query (natural_join (entries d) child);
          modify (with_cur_rows rows)
      end
  end.

(** [cur.execute(sql, [parameter])]: the statement is recorded, the
    rows of an earlier statement are dropped, and the new rows wait in
    the cursor. *)
Definition execute (stmt : statement) : M unit :=
  _ ← modify (λ st, with_cur_rows [] (with_executed (executed st ++ [stmt]) st));
  run_statement stmt.

(** [cur.fetchall()] *)
Definition fetchall : M (list row) :=
  rows ← gets cur_rows;
  _ ← modify (with_cur_rows []);
  mret rows.

(** [for row in rows: res.append(row[0])] *)
Fixpoint first_columns (rows : list row) : result (list sqlval) :=
  match rows with
  | [] => Ok []
  | r :: rest =>
      match r with
      | [] => Raise IndexError
      | v :: _ =>
          match first_columns rest with
          | Ok res => Ok (v :: res)
          | Raise cls => Raise cls
          end
      end
  end.

(** ** Opening the database *)

(** [sql.connect] and [con.cursor()]: a connection without a [regexp]
    function, with SQLite's default pragma, and an empty cursor. *)
Definition connect (st : process) : process :=
  with_cur_rows [] (with_case_sensitive_like false (with_con_regexp None st)).

Definition opendb (case_sensitive : bool) : M unit :=
  _ ← modify connect;
  if case_sensitive then
    _ ← modify (with_con_regexp (Some hook_regexp_sensitive));
    execute (Pragma_case_sensitive_like true)
  else
    _ ← modify (with_con_regexp (Some hook_regexp_insensitive));
    execute (Pragma_case_sensitive_like false).

(** ** Entry fetcher *)

Definition fetch_column (column table : string) (ent_seq : sqlval)
  : M (list sqlval) :=
  _ ← execute (Select_child column table ent_seq);
  rows ← fetchall;
  lift (first_columns rows).

Definition fetch_entry (ent_seq : sqlval)
  : M (list sqlval * list sqlval * list sqlval) :=
  kanjis ← fetch_column "kanji" "kanjis" ent_seq;
  readings ← fetch_column "reading" "readings" ent_seq;
  senses ← fetch_column "sense" "senses" ent_seq;
  mret (kanjis, readings, senses).

(** ** Field search *)

(** Lines 98-104.  [None]: no branch assigned the local [table]. *)
Definition table_of (field : string) : option string :=
  if decide (field = "kanji") then Some "kanjis"
  else if decide (field = "reading") then Some "readings"
  else if decide (field = "sense") then Some "senses"
  else None.

(** Lines 105-108. *)
Definition operator_of (regexp : bool) : string :=
  if regexp then "REGEXP" else "LIKE".

(** Lines 110-119: the value of [query] after the modifiers. *)
Definition transform_query (query : string) (partial word regexp : bool)
  : string :=
  if regexp then
    if word then "\b" +:+ query +:+ "\b"
    else if negb partial then "^" +:+ query +:+ "$"
    else query
  else
    if word then query
    else if partial then "%" +:+ query +:+ "%"
    else query.

Definition search_by (field query : string)
    (partial word regexp case_sensitive : bool) : M (list sqlval) :=
  let table := table_of field in
  let operator := operator_of regexp in
  let query := transform_query query partial word regexp in
  match table with
  | None => raise UnboundLocalError
  | Some table =>
      _ ← execute (Select_join table field operator query);
      rows ← fetchall;
      lift (first_columns rows)
  end.

(** ** Guess search *)

(** One dictionary of keyword arguments for [search_by]: the two
    mandatory ones, and the optional ones when present. *)
Record condition : Type := Condition {
  cond_field : string;
  cond_query : string;
  cond_partial : option bool;
  cond_word : option bool;
  cond_regexp : option bool;
  cond_case_sensitive : option bool
}.

(** [search_by(cur, **condition)] *)
Definition search_by_kwargs (c : condition) : M (list sqlval) :=
  search_by (cond_field c) (cond_query c)
            (default false (cond_partial c))
            (default false (cond_word c))
            (default false (cond_regexp c))
            (default false (cond_case_sensitive c)).

Fixpoint guess_search (conditions : list condition) : M pyvalue :=
  match conditions with
  | [] => mret PyNone
  | condition :: rest =>
      res ← search_by_kwargs condition;
      if decide (0 < length res) then mret (PyList res)
      else guess_search rest
  end.

(** ** Output *)

(** [sep.join(items)]: every item has to be a [str]. *)
Fixpoint str_join (sep : string) (items : list sqlval) : result string :=
  match items with
  | [] => Ok EmptyString
  | VInt _ :: _ => Raise TypeError
  | VText s :: rest =>
      match rest with
      | [] => Ok s
      | _ :: _ =>
          match str_join sep rest with
          | Ok t => Ok (s +:+ sep +:+ t)
          | Raise cls => Raise cls
          end
      end
  end.

Definition tab : string := String (Ascii.ascii_of_nat 9) EmptyString.

Definition format_entry_tsv (kanjis readings senses : list sqlval)
  : result string :=
  match str_join "；" kanjis with
  | Raise cls => Raise cls
  | Ok k =>
      match str_join "；" readings with
      | Raise cls => Raise cls
      | Ok r =>
          match str_join ";" senses with
          | Raise cls => Raise cls
          | Ok s => Ok (k +:+ tab +:+ r +:+ tab +:+ s)
          end
      end
  end.

Definition print (line : string) : M unit :=
  modify (λ st, with_stdout (stdout st ++ [line]) st).

(** ** The command line *)

(** The namespace [ap.parse_args()] returns. *)
Record args : Type := Args {
  arg_field : string;
  arg_case_sensitive : bool;
  arg_partial : bool;
  arg_word : bool;
  arg_regexp : bool;
  arg_query : string
}.

(** [vars(args)], with [field] set to [f]. *)
Definition vars_with_field (f : string) (a : args) : condition :=
  Condition f (arg_query a) (Some (arg_partial a)) (Some (arg_word a))
            (Some (arg_regexp a)) (Some (arg_case_sensitive a)).

Definition in_A_Z (c : Ascii.ascii) : bool :=
  (65 <=? Ascii.nat_of_ascii c)%nat && (Ascii.nat_of_ascii c <=? 90)%nat.

(** [re.search("[A-Z]", s)]: the first character of the class, if any. *)
Fixpoint re_search_A_Z (s : string) : option Ascii.ascii :=
  match s with
  | EmptyString => None
  | String c rest => if in_A_Z c then Some c else re_search_A_Z rest
  end.

(** Lines 197-199. *)
Definition auto_case_sensitive (a : args) : args :=
  if negb (arg_case_sensitive a) then
    if re_search_A_Z (arg_query a) is Some _ then
      Args (arg_field a) true (arg_partial a) (arg_word a) (arg_regexp a)
           (arg_query a)
    else a
  else a.

(** [[fetch_entry(cur, ent_seq) for ent_seq in entries]] over a list. *)
Fixpoint fetch_entries (entries : list sqlval)
  : M (list (list sqlval * list sqlval * list sqlval)) :=
  match entries with
  | [] => mret []
  | ent_seq :: rest =>
      r ← fetch_entry ent_seq;
      rs ← fetch_entries rest;
      mret (r :: rs)
  end.

(** Iterating over what the search returned; [None] is not iterable. *)
Definition fetch_all (entries : pyvalue)
  : M (list (list sqlval * list sqlval * list sqlval)) :=
  match entries with
  | PyNone => raise TypeError
  | PyList l => fetch_entries l
  end.

Fixpoint print_rows (rows : list (list sqlval * list sqlval * list sqlval))
  : M unit :=
  match rows with
  | [] => mret tt
  | (k, r, s) :: rest =>
      line ← lift (format_entry_tsv k r s);
      _ ← print line;
      print_rows rest
  end.

Definition main (a : args) : M unit :=
  let a := auto_case_sensitive a in
  _ ← opendb (arg_case_sensitive a);
  entries ←
    (if decide (arg_field a ≠ "guess") then
       res ← search_by_kwargs (vars_with_field (arg_field a) a);
       mret (PyList res)
     else
       guess_search [vars_with_field "kanji" a;
                     vars_with_field "reading" a;
                     vars_with_field "sense" a]);
  rows ← fetch_all entries;
  print_rows rows.

End Program.

(** ** Vocabulary of the statements

    The searches of a list of conditions run one after the other,
    results collected; used to say what "every earlier search came back
    empty" means. *)
Section Vocabulary.
Context {E : Engine}.

(** A series of later calls, whatever they ask for and whether or not
    they raise. *)
Fixpoint after_calls (calls : list (string * Z)) (st : process) : process :=
  match calls with
  | [] => st
  | (pattern, flags) :: rest => after_calls rest (get_regex pattern flags st).2
  end.

Fixpoint search_each (conditions : list condition) : M (list (list sqlval)) :=
  match conditions with
  | [] => mret []
  | c :: rest =>
      res ← search_by_kwargs c;
      more ← search_each rest;
      mret (res :: more)
  end.

End Vocabulary.

(** The statement the search of a condition sends, when its field
    names a table. *)
Definition join_statement (c : condition) : option statement :=
  table ← table_of (cond_field c);
  Some (Select_join table (cond_field c)
          (operator_of (default false (cond_regexp c)))
          (transform_query (cond_query c)
             (default false (cond_partial c))
             (default false (cond_word c))
             (default false (cond_regexp c)))).

(** [keeps R m]: whatever [m] does, the state it ends in is related by
    [R] to the one it started from, also when it raises. *)
Definition keeps (R : process → process → Prop) {A : Type} (m : M A) : Prop :=
  ∀ st, R st (m st).2.

(** The relations of interest: the patterns already stored stay
    stored, as the same objects; the connection keeps its
    mode; the log of statements is as it was. *)
Definition store_extends (st st' : process) : Prop :=
  ∀ p c, regexp_store st !! p = Some c → regexp_store st' !! p = Some c.

Definition same_mode (st st' : process) : Prop :=
  con_regexp st' = con_regexp st ∧
  con_case_sensitive_like st' = con_case_sensitive_like st.

Definition same_log (st st' : process) : Prop := executed st' = executed st.

(** Every pattern in the store of a process that started with an empty
    one carries the Unicode bit. *)
Definition all_unicode (st : process) : Prop :=
  ∀ p c, regexp_store st !! p = Some c →
         obj_pattern c = p ∧ Z.testbit (obj_flags c) 5 = true.

(** What [search_by] sends for a field, or how it ends when the field
    names no table. *)
Definition sends (field : string) (operator query : string)
    (run : result (list sqlval) * process) (st : process) : Prop :=
  match table_of field with
  | Some table =>
      executed run.2 = executed st ++ [Select_join table field operator query]
  | None => run = (Raise UnboundLocalError, st)
  end.










Definition is_text (v : sqlval) : Prop :=
  match v with VText _ => True | VInt _ => False end.

(** The pattern store is well formed: an object is stored under the
    text it was compiled from, it was created by this process, and no
    object is stored under two texts. *)
Definition cache_wf (st : process) : Prop :=
  ∀ p c, regexp_store st !! p = Some c →
    obj_pattern c = p
    ∧ (obj_id c < allocated st)%nat
    ∧ ∀ p' c', regexp_store st !! p' = Some c' → obj_id c' = obj_id c → p' = p.

(** The dictionary is as it was and the pattern store has lost nothing. *)
Definition read_only (st st' : process) : Prop :=
  db st' = db st ∧ store_extends st st'.

(** The characters of a text. *)
Definition chars (s : string) : list Ascii.ascii := String.list_ascii_of_string s.

(** An ASCII capital letter. *)
Definition capital (c : Ascii.ascii) : Prop :=
  (Ascii.nat_of_ascii "A"%char ≤ Ascii.nat_of_ascii c
   ≤ Ascii.nat_of_ascii "Z"%char)%nat.

#[global] Instance capital_dec (c : Ascii.ascii) : Decision (capital c).
Proof. unfold capital. apply _. Defined.





(** "An uppercase character" in the words of the specification, as far
    as the examples go: the capitals of ASCII, and the capital letters
    of the Latin-1 supplement, U+00C0 to U+00DE without the sign U+00D7,
    which UTF-8 writes as the byte 195 followed by a byte from 128 to
    158 other than 151.  To be compared with [re_search_A_Z], which is
    the test the program makes. *)
Definition latin1_capital (c d : Ascii.ascii) : bool :=
  (Ascii.nat_of_ascii c =? 195)%nat
  && (128 <=? Ascii.nat_of_ascii d)%nat && (Ascii.nat_of_ascii d <=? 158)%nat
  && negb (Ascii.nat_of_ascii d =? 151)%nat.

Fixpoint has_uppercase (s : string) : bool :=
  match s with
  | EmptyString => false
  | String c rest =>
      in_A_Z c
      || match rest with
         | String d _ => latin1_capital c d
         | EmptyString => false
         end
      || has_uppercase rest
  end.

(** ** A small engine and dictionary for the examples

    The example engine accepts every pattern but an unbalanced [(];
    it answers [LIKE] and [REGEXP] for texts without ASCII letters and
    without metacharacters, where [LIKE] without wildcard is equality
    and [^text$] matches exactly [text]. *)
Module Examples.

#[export] Instance engine : Engine := {|
  re_accepts := λ pattern _, negb (String.eqb pattern "(");
  re_search := λ pattern _ text, String.eqb pattern ("^" +:+ text +:+ "$");
  sql_like := λ _ pattern text, String.eqb pattern text
|}.

Definition empty_db : database := Database [] [] [] [].

(** Entries 1, 5 and 9; asking for the text かみ finds nothing among the
    written forms, entries 5 and 9 among the readings, and entry 1
    among the glosses. *)
Definition kami_db : database :=
  Database [1; 5; 9]%Z
           [(5, "紙"); (9, "神"); (1, "上")]%Z
           [(5, "かみ"); (1, "うえ"); (9, "かみ")]%Z
           [(5, "paper"); (9, "god"); (1, "かみ")]%Z.

Definition kami (field : string) : condition :=
  Condition field "かみ" None None None None.

(** That dictionary with the connection open, case-insensitive. *)
Definition kami_open : process := (opendb false (fresh_process kami_db)).2.

(** A word that is nowhere in that dictionary. *)
Definition neko (field : string) : condition :=
  Condition field "ねこ" None None None None.

(** One entry, as the import would have stored it. *)
Definition nihongo_db : database :=
  Database [1000; 1464530]%Z
           [(1000, "〃"); (1464530, "日本語")]%Z
           [(1464530, "にほんご"); (1000, "おなじ")]%Z
           [(1000, "ditto mark"); (1464530, "Japanese language")]%Z.

End Examples.

(** * Properties *)

(** ** Running a computation *)

Lemma run_bind {A B : Type} (m : M A) (k : A → M B) (st : process) :
  (m ≫= k) st =
  match m st with
  | (Ok a, st') => k a st'
  | (Raise cls, st') => (Raise cls, st')
  end.
Proof. reflexivity. Qed.

Ltac run :=
  repeat (progress (rewrite ?run_bind; cbn [gets modify raise lift mret M_ret])).

Lemma run_bind_ok {A B : Type} (m : M A) (k : A → M B) st a st' :
  m st = (Ok a, st') → (m ≫= k) st = k a st'.
Proof. intros H. rewrite run_bind, H. reflexivity. Qed.

Lemma run_bind_raise {A B : Type} (m : M A) (k : A → M B) st cls st' :
  m st = (Raise cls, st') → (m ≫= k) st = (Raise cls, st').
Proof. intros H. rewrite run_bind, H. reflexivity. Qed.

(** ** What a computation leaves in place *)
Section Keeps.
Variable R : process → process → Prop.
Hypothesis R_refl : ∀ st, R st st.
Hypothesis R_trans : ∀ a b c, R a b → R b c → R a c.

Lemma keeps_ret {A : Type} (a : A) : keeps R (mret a).
Proof. intros st. apply R_refl. Qed.

Lemma keeps_raise {A : Type} (cls : string) : keeps R (@raise A cls).
Proof. intros st. apply R_refl. Qed.

Lemma keeps_gets {A : Type} (f : process → A) : keeps R (gets f).
Proof. intros st. apply R_refl. Qed.

Lemma keeps_lift {A : Type} (r : result A) : keeps R (lift r).
Proof. intros st. apply R_refl. Qed.

Lemma keeps_modify (f : process → process) :
  (∀ st, R st (f st)) → keeps R (modify f).
Proof. intros H st. apply H. Qed.

Lemma keeps_bind {A B : Type} (m : M A) (k : A → M B) :
  keeps R m → (∀ a, keeps R (k a)) → keeps R (m ≫= k).
Proof.
  intros Hm Hk st. rewrite run_bind.
  specialize (Hm st). destruct (m st) as [[a|cls] st1]; simpl in *.
  - eapply R_trans; [exact Hm | apply Hk].
  - exact Hm.
Qed.

End Keeps.

Lemma store_extends_refl st : store_extends st st.
Proof. intros p c H. exact H. Qed.

Lemma store_extends_trans a b c :
  store_extends a b → store_extends b c → store_extends a c.
Proof. intros H1 H2 p o H. apply H2, H1, H. Qed.

Lemma same_mode_refl st : same_mode st st.
Proof. split; reflexivity. Qed.

Lemma same_mode_trans a b c : same_mode a b → same_mode b c → same_mode a c.
Proof. intros [H1 H2] [H3 H4]. split; congruence. Qed.

Section Properties.
Context {E : Engine}.

(** ** Pattern cache *)

Lemma get_regex_hit (pattern : string) (flags : Z) st comp :
  regexp_store st !! pattern = Some comp →
  get_regex pattern flags st = (Ok comp, st).
Proof.
  intros H. unfold get_regex. rewrite run_bind. cbn [gets].
  rewrite H. reflexivity.
Qed.

Lemma get_regex_miss (pattern : string) (flags : Z) st :
  regexp_store st !! pattern = None →
  get_regex pattern flags st =
  if re_accepts pattern (Z.lor re_U flags) then
    let comp := Pattern (allocated st) pattern (Z.lor re_U flags) in
    (Ok comp,
     with_regexp_store (<[pattern := comp]> (regexp_store st))
                       (with_allocated (S (allocated st)) st))
  else (Raise re_error, st).
Proof.
  intros H. unfold get_regex. rewrite run_bind. cbn [gets].
  rewrite H. unfold re_compile.
  destruct (re_accepts pattern (Z.lor re_U flags)); reflexivity.
Qed.

Lemma get_regex_stores (pattern : string) (flags : Z) st comp st' :
  get_regex pattern flags st = (Ok comp, st') →
  regexp_store st' !! pattern = Some comp.
Proof.
  destruct (regexp_store st !! pattern) as [c|] eqn:Hl.
  - rewrite (get_regex_hit _ _ _ _ Hl). intros [= <- <-]. exact Hl.
  - rewrite (get_regex_miss _ _ _ Hl).
    destruct (re_accepts pattern (Z.lor re_U flags)); [|discriminate].
    cbn. intros [= <- <-]. cbn. apply lookup_insert_eq.
Qed.

Lemma get_regex_extends (pattern : string) (flags : Z) :
  keeps store_extends (get_regex pattern flags).
Proof.
  intros st. destruct (regexp_store st !! pattern) as [c|] eqn:Hl.
  - rewrite (get_regex_hit _ _ _ _ Hl). apply store_extends_refl.
  - rewrite (get_regex_miss _ _ _ Hl).
    destruct (re_accepts pattern (Z.lor re_U flags)); cbn.
    + intros p c Hp. cbn.
      destruct (decide (pattern = p)) as [->|Hne]; [congruence|].
      rewrite lookup_insert_ne; assumption.
    + apply store_extends_refl.
Qed.

Lemma get_regex_same_mode (pattern : string) (flags : Z) :
  keeps same_mode (get_regex pattern flags).
Proof.
  intros st. destruct (regexp_store st !! pattern) as [c|] eqn:Hl.
  - rewrite (get_regex_hit _ _ _ _ Hl). apply same_mode_refl.
  - rewrite (get_regex_miss _ _ _ Hl).
    destruct (re_accepts pattern (Z.lor re_U flags)); cbn; split; reflexivity.
Qed.

Lemma after_calls_extends calls st : store_extends st (after_calls calls st).
Proof.
  revert st. induction calls as [|[p f] calls IH]; intros st; cbn.
  - apply store_extends_refl.
  - eapply store_extends_trans; [apply get_regex_extends | apply IH].
Qed.

(** C7.  Once [get_regex] has compiled and stored a pattern, every later
    call with the same pattern text returns that same object (same
    identity, same flags), whatever flags the later call passes and
    whatever was asked in between: the store is keyed by the text
    alone. *)
Theorem get_regex_keyed_by_text_only
    (pattern : string) (flags flags' : Z) (calls : list (string * Z))
    (st st1 : process) (comp : pattern_obj) :
  get_regex pattern flags st = (Ok comp, st1) →
  get_regex pattern flags' (after_calls calls st1)
  = (Ok comp, after_calls calls st1).
Proof.
  intros H. apply get_regex_hit.
  apply after_calls_extends. eapply get_regex_stores, H.
Qed.

(** C10.  A pattern that [get_regex] compiles is stored compiled with
    [re.U] or-ed into the flags asked for: the Unicode bit is set, every
    bit asked for is set, and the case-sensitive path, which asks for
    no flag, stores a pattern compiled with exactly [re.U]. *)
Theorem get_regex_compiles_with_re_U
    (pattern : string) (flags : Z) (st st' : process) (comp : pattern_obj) :
  regexp_store st !! pattern = None →
  get_regex pattern flags st = (Ok comp, st') →
  regexp_store st' !! pattern = Some comp
  ∧ obj_flags comp = Z.lor re_U flags
  ∧ Z.testbit (obj_flags comp) 5 = true
  ∧ (∀ i, Z.testbit flags i = true → Z.testbit (obj_flags comp) i = true)
  ∧ (flags = 0%Z → obj_flags comp = re_U).
Proof.
  intros Hnone Hget.
  split; [eapply get_regex_stores, Hget|].
  rewrite (get_regex_miss _ _ _ Hnone) in Hget.
  destruct (re_accepts pattern (Z.lor re_U flags)); [|discriminate].
  cbv zeta in Hget. injection Hget as <- <-. cbn [obj_flags].
  repeat split.
  - rewrite Z.lor_spec. reflexivity.
  - intros i Hi. rewrite Z.lor_spec, Hi. apply orb_true_r.
  - intros ->. reflexivity.
Qed.

Lemma get_regex_all_unicode (pattern : string) (flags : Z) st :
  all_unicode st → all_unicode (get_regex pattern flags st).2.
Proof.
  intros Hinv. destruct (regexp_store st !! pattern) as [c|] eqn:Hl.
  - rewrite (get_regex_hit _ _ _ _ Hl). exact Hinv.
  - rewrite (get_regex_miss _ _ _ Hl).
    destruct (re_accepts pattern (Z.lor re_U flags)); [|exact Hinv].
    intros p c. cbn [snd regexp_store with_regexp_store].
    destruct (decide (pattern = p)) as [->|Hne].
    + rewrite lookup_insert_eq. intros [= <-]. cbn [obj_pattern obj_flags].
      split; [reflexivity|]. rewrite Z.lor_spec. reflexivity.
    + rewrite lookup_insert_ne by assumption. apply Hinv.
Qed.

Lemma after_calls_all_unicode calls (d : database) :
  all_unicode (after_calls calls (fresh_process d)).
Proof.
  assert (Hgen : ∀ st, all_unicode st → all_unicode (after_calls calls st)).
  { induction calls as [|[p f] calls IH]; intros st Hst; cbn; [exact Hst|].
    apply IH, get_regex_all_unicode, Hst. }
  apply Hgen. intros p c. cbn. rewrite lookup_empty. discriminate.
Qed.

(** ** What the searches leave in place *)

Lemma same_log_refl st : same_log st st.
Proof. reflexivity. Qed.

Lemma same_log_trans a b c : same_log a b → same_log b c → same_log a c.
Proof. unfold same_log. congruence. Qed.

Lemma same_log_cur_rows rows st : same_log st (with_cur_rows rows st).
Proof. reflexivity. Qed.

Lemma get_regex_same_log (pattern : string) (flags : Z) :
  keeps same_log (get_regex pattern flags).
Proof.
  intros st. destruct (regexp_store st !! pattern) as [c|] eqn:Hl.
  - rewrite (get_regex_hit _ _ _ _ Hl). reflexivity.
  - rewrite (get_regex_miss _ _ _ Hl).
    destruct (re_accepts pattern (Z.lor re_U flags)); reflexivity.
Qed.

Section Frame.
Variable R : process → process → Prop.
Hypothesis R_refl : ∀ st, R st st.
Hypothesis R_trans : ∀ a b c, R a b → R b c → R a c.
Hypothesis R_get_regex : ∀ p f, keeps R (get_regex p f).
Hypothesis R_cur_rows : ∀ rows st, R st (with_cur_rows rows st).

Ltac frame :=
  repeat first
    [ apply R_get_regex
    | apply (keeps_ret R R_refl) | apply (keeps_raise R R_refl)
    | apply (keeps_gets R R_refl) | apply (keeps_lift R R_refl)
    | apply keeps_modify; intro; apply R_cur_rows
    | match goal with
      | |- keeps _ (_ ≫= _) => apply (keeps_bind R R_trans)
      | |- ∀ _, keeps _ _ => intro
      end ].

Lemma keeps_call_regexp h (pattern field : string) :
  keeps R (call_regexp h pattern field).
Proof.
  assert (Hs : keeps R (regexp_sensitive pattern field))
    by (unfold regexp_sensitive; frame).
  assert (Hi : keeps R (regexp_insensitive pattern field))
    by (unfold regexp_insensitive; frame).
  intros st. unfold call_regexp. destruct h.
  - specialize (Hs st).
    destruct (regexp_sensitive pattern field st) as [[b|cls] st']; exact Hs.
  - specialize (Hi st).
    destruct (regexp_insensitive pattern field st) as [[b|cls] st']; exact Hi.
Qed.

Lemma keeps_where_matches (operator pattern value : string) :
  keeps R (where_matches operator pattern value).
Proof.
  unfold where_matches. repeat case_decide; frame.
  destruct a; [apply keeps_call_regexp | frame].
Qed.

Lemma keeps_select_matching (operator pattern : string) joined :
  keeps R (select_matching operator pattern joined).
Proof.
  induction joined as [|r rest IH]; cbn [select_matching]; [frame|].
  apply (keeps_bind R R_trans); [apply keeps_where_matches|]. intros b.
  apply (keeps_bind R R_trans); [exact IH|]. frame.
Qed.

Lemma keeps_run_select (stmt : statement) :
  (∀ on, stmt ≠ Pragma_case_sensitive_like on) →
  keeps R (run_statement stmt).
Proof.
  intros Hstmt. destruct stmt as [on|column table key|table column op q];
    [destruct (Hstmt on eq_refl)|..]; cbn [run_statement].
  - apply (keeps_bind R R_trans); [frame|]. intros d.
    destruct (child_table d table column); frame.
  - apply (keeps_bind R R_trans); [frame|]. intros d.
    destruct (child_table d table column); [|frame].
    apply (keeps_bind R R_trans); [apply keeps_select_matching|]. frame.
Qed.

Lemma keeps_fetchall : keeps R fetchall.
Proof. unfold fetchall. frame. Qed.

(** With the log and the terminal out of the picture as well, the
    whole search and fetch layer is covered. *)
Hypothesis R_executed : ∀ log st, R st (with_executed log st).
Hypothesis R_stdout : ∀ out st, R st (with_stdout out st).

Lemma keeps_execute_select (stmt : statement) :
  (∀ on, stmt ≠ Pragma_case_sensitive_like on) →
  keeps R (execute stmt).
Proof.
  intros Hstmt. unfold execute. apply (keeps_bind R R_trans).
  - apply keeps_modify. intros st.
    eapply R_trans; [apply R_executed | apply R_cur_rows].
  - intros _. apply keeps_run_select, Hstmt.
Qed.

Lemma keeps_search_by (field query : string) (partial word regexp cs : bool) :
  keeps R (search_by field query partial word regexp cs).
Proof.
  unfold search_by. destruct (table_of field) as [table|]; [|frame].
  apply (keeps_bind R R_trans); [apply keeps_execute_select; discriminate|].
  intros _. apply (keeps_bind R R_trans); [apply keeps_fetchall|]. frame.
Qed.

Lemma keeps_guess_search conditions : keeps R (guess_search conditions).
Proof.
  induction conditions as [|c rest IH]; cbn [guess_search]; [frame|].
  apply (keeps_bind R R_trans); [apply keeps_search_by|].
  intros res. case_decide; [frame | exact IH].
Qed.

Lemma keeps_fetch_column (column table : string) ent_seq :
  keeps R (fetch_column column table ent_seq).
Proof.
  unfold fetch_column.
  apply (keeps_bind R R_trans); [apply keeps_execute_select; discriminate|].
  intros _. apply (keeps_bind R R_trans); [apply keeps_fetchall|]. frame.
Qed.

Lemma keeps_fetch_entry ent_seq : keeps R (fetch_entry ent_seq).
Proof.
  unfold fetch_entry.
  repeat (apply (keeps_bind R R_trans); [apply keeps_fetch_column|]; intro).
  frame.
Qed.

Lemma keeps_fetch_all entries : keeps R (fetch_all entries).
Proof.
  destruct entries as [|l]; cbn [fetch_all]; [frame|].
  induction l as [|e rest IH]; cbn [fetch_entries]; [frame|].
  apply (keeps_bind R R_trans); [apply keeps_fetch_entry|]. intros r.
  apply (keeps_bind R R_trans); [exact IH|]. frame.
Qed.

Lemma keeps_print_rows rows : keeps R (print_rows rows).
Proof.
  induction rows as [|[[k r] s] rest IH]; cbn [print_rows]; [frame|].
  apply (keeps_bind R R_trans); [frame|]. intros line.
  apply (keeps_bind R R_trans); [|intros _; exact IH].
  unfold print. apply keeps_modify. intros st. apply R_stdout.
Qed.

End Frame.

(** ** Field search *)

Ltac log_rel :=
  first [ exact same_log_refl | exact same_log_trans
        | exact same_log_cur_rows | exact get_regex_same_log ].

Lemma table_of_None (field : string) :
  table_of field = None ↔
  field ≠ "kanji" ∧ field ≠ "reading" ∧ field ≠ "sense".
Proof.
  unfold table_of. repeat case_decide; split; try discriminate; try tauto.
  all: intros (? & ? & ?); congruence.
Qed.

Lemma search_by_no_table (field query : string) (partial word regexp cs : bool) st :
  table_of field = None →
  search_by field query partial word regexp cs st = (Raise UnboundLocalError, st).
Proof. intros H. unfold search_by. rewrite H. reflexivity. Qed.

Lemma execute_log (stmt : statement) st :
  executed (execute stmt st).2 = executed st ++ [stmt].
Proof.
  unfold execute. rewrite run_bind. cbn [modify].
  set (st1 := with_cur_rows [] _).
  assert (H : same_log st1 (run_statement stmt st1).2).
  { destruct stmt as [on| |]; [reflexivity|..];
      apply (keeps_run_select same_log); first [log_rel | discriminate]. }
  destruct (run_statement stmt st1) as [[[]|cls] st2]; exact H.
Qed.

Lemma after_execute_log {A : Type} (stmt : statement) (k : M A) st :
  keeps same_log k →
  executed ((execute stmt ≫= λ _, k) st).2 = executed st ++ [stmt].
Proof.
  intros Hk. rewrite run_bind. pose proof (execute_log stmt st) as Hlog.
  destruct (execute stmt st) as [[[]|cls] st1]; cbn [snd] in *; [|exact Hlog].
  rewrite <- Hlog. apply Hk.
Qed.

Lemma search_by_log (field query : string) (partial word regexp cs : bool) st table :
  table_of field = Some table →
  executed (search_by field query partial word regexp cs st).2
  = executed st ++ [Select_join table field (operator_of regexp)
                      (transform_query query partial word regexp)].
Proof.
  intros H. unfold search_by. rewrite H. apply after_execute_log.
  apply (keeps_bind same_log same_log_trans).
  - apply (keeps_fetchall same_log); log_rel.
  - intros rows st'. reflexivity.
Qed.

Lemma search_by_ok_table (field query : string) (partial word regexp cs : bool)
    st res st' :
  search_by field query partial word regexp cs st = (Ok res, st') →
  is_Some (table_of field).
Proof.
  destruct (table_of field) eqn:H; [eauto|].
  rewrite search_by_no_table by assumption. discriminate.
Qed.

Lemma search_by_kwargs_log (c : condition) st res st' :
  search_by_kwargs c st = (Ok res, st') →
  ∃ stmt, join_statement c = Some stmt ∧ executed st' = executed st ++ [stmt].
Proof.
  intros H. unfold search_by_kwargs in H.
  destruct (search_by_ok_table _ _ _ _ _ _ _ _ _ H) as [table Ht].
  pose proof (search_by_log (cond_field c) (cond_query c)
                (default false (cond_partial c)) (default false (cond_word c))
                (default false (cond_regexp c))
                (default false (cond_case_sensitive c)) st table Ht) as Hlog.
  rewrite H in Hlog. cbn [snd] in Hlog.
  eexists. split; [|exact Hlog].
  unfold join_statement. rewrite Ht. reflexivity.
Qed.

(** C3 (amended).  For every field other than kanji, reading and sense,
    [search_by] raises Python's [UnboundLocalError], for the local
    [table] that no branch assigned, before any statement is sent:
    nothing is executed, the process is left as it was, and no result
    list is returned. *)
Theorem search_by_unknown_field_raises
    (field query : string) (partial word regexp cs : bool) (st : process) :
  field ≠ "kanji" → field ≠ "reading" → field ≠ "sense" →
  search_by field query partial word regexp cs st
  = (Raise UnboundLocalError, st).
Proof.
  intros H1 H2 H3. apply search_by_no_table, table_of_None. auto.
Qed.

Lemma search_by_sends (field query : string) (partial word regexp cs : bool) st :
  sends field (operator_of regexp) (transform_query query partial word regexp)
        (search_by field query partial word regexp cs st) st.
Proof.
  unfold sends. destruct (table_of field) as [table|] eqn:Ht.
  - apply search_by_log, Ht.
  - apply search_by_no_table, Ht.
Qed.

(** C4.  With regexp on, word off and partial off, whatever the field
    and the query, the operator is REGEXP and the query becomes
    [^query$]; that is the statement a search on one of the three
    fields executes. *)
Theorem search_by_regexp_anchors_whole_text
    (field query : string) (cs : bool) (st : process) :
  operator_of true = "REGEXP"
  ∧ transform_query query false false true = "^" +:+ query +:+ "$"
  ∧ sends field "REGEXP" ("^" +:+ query +:+ "$")
          (search_by field query false false true cs st) st.
Proof.
  split; [reflexivity|]. split; [reflexivity|].
  apply (search_by_sends field query false false true cs st).
Qed.

(** C5.  With regexp on and word on, whatever partial is, the query
    becomes [\bquery\b], sent with REGEXP. *)
Theorem search_by_regexp_word_boundaries
    (field query : string) (partial cs : bool) (st : process) :
  operator_of true = "REGEXP"
  ∧ transform_query query partial true true = "\b" +:+ query +:+ "\b"
  ∧ sends field "REGEXP" ("\b" +:+ query +:+ "\b")
          (search_by field query partial true true cs st) st.
Proof.
  split; [reflexivity|]. split; [reflexivity|].
  apply (search_by_sends field query partial true true cs st).
Qed.

(** C6 (amended).  With regexp off the operator is LIKE.  With word
    off, partial wraps the query in [%] on both sides and the query is
    left as it is otherwise; with word on the query is left as it is
    whatever partial says.  The query so obtained is the one sent. *)
Theorem search_by_like_modifiers
    (field query : string) (partial word cs : bool) (st : process) :
  operator_of false = "LIKE"
  ∧ transform_query query true false false = "%" +:+ query +:+ "%"
  ∧ transform_query query false false false = query
  ∧ transform_query query partial true false = query
  ∧ sends field "LIKE"
          (if word then query
           else if partial then "%" +:+ query +:+ "%" else query)
          (search_by field query partial word false cs st) st.
Proof.
  split; [reflexivity|]. split; [reflexivity|]. split; [reflexivity|].
  split; [reflexivity|].
  apply (search_by_sends field query partial word false cs st).
Qed.

(** ** Guess search *)

Lemma guess_search_skips_empty (pre rest : list condition) st rs st0 :
  search_each pre st = (Ok rs, st0) →
  Forall (λ r, r = []) rs →
  guess_search (pre ++ rest) st = guess_search rest st0
  ∧ executed st0 = executed st ++ omap join_statement pre
  ∧ length (omap join_statement pre) = length pre.
Proof.
  revert st rs. induction pre as [|c pre IH]; intros st rs Hrun Hall.
  - cbn in Hrun. injection Hrun as <- <-. cbn. rewrite app_nil_r. auto.
  - cbn [search_each] in Hrun. rewrite run_bind in Hrun.
    destruct (search_by_kwargs c st) as [[res|cls] st1] eqn:Hc; [|discriminate].
    rewrite run_bind in Hrun.
    destruct (search_each pre st1) as [[more|cls] st2] eqn:Hpre; [|discriminate].
    cbn in Hrun. injection Hrun as <- <-.
    apply Forall_cons in Hall as [-> Hall].
    destruct (IH st1 more Hpre Hall) as (IHg & IHlog & IHlen).
    destruct (search_by_kwargs_log c st [] st1 Hc) as (stmt & Hstmt & Hlog).
    cbn [app guess_search omap list_omap]. rewrite Hstmt.
    split; [|split].
    + rewrite (run_bind_ok _ _ _ _ _ Hc). cbn [length].
      case_decide; [lia | exact IHg].
    + rewrite IHlog, Hlog, <- app_assoc. reflexivity.
    + cbn [length]. rewrite IHlen. reflexivity.
Qed.

(** C1.  When the searches of the conditions [pre] all come back empty
    and the search of the next condition [c] comes back with a
    non-empty list [res], [guess_search] returns exactly [res] and ends
    in the state that search ended in: the statements executed are those
    of [pre] and of [c], in that order, one each, and nothing of the
    conditions that follow. *)
Theorem guess_search_first_non_empty
    (pre post : list condition) (c : condition)
    (st st0 st1 : process) (rs : list (list sqlval)) (res : list sqlval) :
  search_each pre st = (Ok rs, st0) →
  Forall (λ r, r = []) rs →
  search_by_kwargs c st0 = (Ok res, st1) →
  res ≠ [] →
  guess_search (pre ++ c :: post) st = (Ok (PyList res), st1)
  ∧ executed st1 = executed st ++ omap join_statement (pre ++ [c])
  ∧ length (omap join_statement (pre ++ [c])) = S (length pre).
Proof.
  intros Hpre Hall Hc Hres.
  destruct (guess_search_skips_empty pre (c :: post) st rs st0 Hpre Hall)
    as (Hg & Hlog & Hlen).
  destruct (search_by_kwargs_log c st0 res st1 Hc) as (stmt & Hstmt & Hlogc).
  split; [|split].
  - rewrite Hg. cbn [guess_search]. rewrite (run_bind_ok _ _ _ _ _ Hc).
    case_decide; [reflexivity|]. destruct res; [congruence | cbn in *; lia].
  - rewrite omap_app. cbn [omap list_omap]. rewrite Hstmt.
    rewrite Hlogc, Hlog, <- app_assoc. reflexivity.
  - rewrite omap_app, length_app, Hlen. cbn [omap list_omap]. rewrite Hstmt.
    cbn. lia.
Qed.

(** C2.  When every search comes back empty, the loop of
    [guess_search] runs out and the function returns [None], not an
    empty list; iterating over that result, as the caller does, raises
    [TypeError]. *)
Theorem guess_search_all_empty_returns_None
    (conditions : list condition) (st st' : process) (rs : list (list sqlval)) :
  search_each conditions st = (Ok rs, st') →
  Forall (λ r, r = []) rs →
  guess_search conditions st = (Ok PyNone, st')
  ∧ (guess_search conditions ≫= fetch_all) st = (Raise TypeError, st').
Proof.
  intros Hrun Hall.
  destruct (guess_search_skips_empty conditions [] st rs st' Hrun Hall)
    as (Hg & _ & _).
  rewrite app_nil_r in Hg. cbn [guess_search] in Hg.
  split; [exact Hg|]. rewrite (run_bind_ok _ _ _ _ _ Hg). reflexivity.
Qed.

(** ** Entry fetcher *)

Lemma first_columns_singletons {A : Type} (f : A → sqlval) (l : list A) :
  first_columns ((λ r, [f r]) <$> l) = Ok (f <$> l).
Proof.
  induction l as [|x l IH]; [reflexivity|].
  cbn [fmap list_fmap first_columns] in *. rewrite IH. reflexivity.
Qed.

Lemma fetch_column_run (column table : string) (key : sqlval) st child :
  child_table (db st) table column = Some child →
  ∃ st', fetch_column column table key st
         = (Ok ((λ r, VText r.2) <$> filter (λ r, ent_seq_is key r = true) child), st')
         ∧ db st' = db st.
Proof.
  intros Hc. eexists. unfold fetch_column, execute, fetchall.
  run. cbn [run_statement]. run. cbn [db with_cur_rows with_executed].
  rewrite Hc. run. cbn [cur_rows with_cur_rows].
  rewrite (first_columns_singletons (λ r : Z * string, VText r.2)).
  split; reflexivity.
Qed.

Lemma filter_ent_seq_single (id : Z) (text : string) (before after : list (Z * string)) :
  id ∉ before.*1 → id ∉ after.*1 →
  filter (λ r, ent_seq_is (VInt id) r = true) (before ++ (id, text) :: after)
  = [(id, text)].
Proof.
  intros Hb Ha.
  assert (Hnil : ∀ l : list (Z * string), id ∉ l.*1 →
            filter (λ r, ent_seq_is (VInt id) r = true) l = []).
  { induction l as [|[z t] l IH]; [reflexivity|]. cbn [fmap list_fmap fst].
    intros Hl. apply not_elem_of_cons in Hl as [Hz Hl].
    rewrite filter_cons_False; [apply IH, Hl|].
    cbn. rewrite bool_decide_eq_true. cbn. congruence. }
  rewrite filter_app, (Hnil before Hb), filter_cons_True.
  - rewrite (Hnil after Ha). reflexivity.
  - cbn. apply bool_decide_eq_true. reflexivity.
Qed.

(** C9.  An entry stored with the one written form 日本語, the one
    reading にほんご and the one gloss "Japanese language", among the
    rows of any other entries: [fetch_entry] on its id returns exactly
    these three one-element lists. *)
Theorem fetch_entry_round_trip
    (ent_seq : Z) (st : process) (k1 k2 r1 r2 s1 s2 : list (Z * string)) :
  kanjis (db st) = k1 ++ (ent_seq, "日本語") :: k2 →
  readings (db st) = r1 ++ (ent_seq, "にほんご") :: r2 →
  senses (db st) = s1 ++ (ent_seq, "Japanese language") :: s2 →
  ent_seq ∉ (k1 ++ k2).*1 →
  ent_seq ∉ (r1 ++ r2).*1 →
  ent_seq ∉ (s1 ++ s2).*1 →
  (fetch_entry (VInt ent_seq) st).1
  = Ok ([VText "日本語"], [VText "にほんご"], [VText "Japanese language"]).
Proof.
  intros Hk Hr Hs Nk Nr Ns.
  rewrite fmap_app, not_elem_of_app in Nk, Nr, Ns.
  destruct Nk as [Nk1 Nk2], Nr as [Nr1 Nr2], Ns as [Ns1 Ns2].
  unfold fetch_entry.
  destruct (fetch_column_run "kanji" "kanjis" (VInt ent_seq) st (kanjis (db st)))
    as (st1 & H1 & D1); [reflexivity|].
  destruct (fetch_column_run "reading" "readings" (VInt ent_seq) st1 (readings (db st1)))
    as (st2 & H2 & D2); [reflexivity|].
  destruct (fetch_column_run "sense" "senses" (VInt ent_seq) st2 (senses (db st2)))
    as (st3 & H3 & D3); [reflexivity|].
  rewrite (run_bind_ok _ _ _ _ _ H1), (run_bind_ok _ _ _ _ _ H2),
    (run_bind_ok _ _ _ _ _ H3).
  rewrite D2, D1, Hs, Hr, Hk, !filter_ent_seq_single by assumption.
  reflexivity.
Qed.

(** ** Case mode of the connection *)

Lemma in_A_Z_capital (c : ascii) : in_A_Z c = true ↔ capital c.
Proof.
  unfold in_A_Z, capital. rewrite andb_true_iff, !Nat.leb_le.
  reflexivity.
Qed.

Lemma re_search_A_Z_spec (s : string) :
  is_Some (re_search_A_Z s) ↔ Exists capital (chars s).
Proof.
  unfold chars. induction s as [|c s IH]; cbn [re_search_A_Z String.list_ascii_of_string].
  - split; [intros [x Hx]; discriminate | intros H; inversion H].
  - rewrite Exists_cons, <- IH, <- in_A_Z_capital.
    destruct (in_A_Z c); split; eauto.
    + intros [H|H]; [discriminate | exact H].
Qed.

Lemma auto_case_sensitive_spec (a : args) :
  arg_case_sensitive (auto_case_sensitive a)
  = arg_case_sensitive a || bool_decide (Exists capital (chars (arg_query a))).
Proof.
  unfold auto_case_sensitive. destruct (arg_case_sensitive a) eqn:Hcs; cbn.
  - exact Hcs.
  - pose proof (re_search_A_Z_spec (arg_query a)) as Hspec.
    destruct (re_search_A_Z (arg_query a)) as [c|].
    + symmetry. apply bool_decide_eq_true, Hspec. eauto.
    + rewrite Hcs. symmetry. apply bool_decide_eq_false.
      intros H. apply Hspec in H as [x Hx]. discriminate.
Qed.

Lemma opendb_run (cs : bool) st :
  ∃ st', opendb cs st = (Ok tt, st')
         ∧ con_case_sensitive_like st' = cs
         ∧ con_regexp st' = Some (if cs then hook_regexp_sensitive
                                  else hook_regexp_insensitive).
Proof. destruct cs; eexists; (split; [reflexivity|split; reflexivity]). Qed.

Ltac mode_rel :=
  first [ exact same_mode_refl | exact same_mode_trans
        | exact get_regex_same_mode
        | intros; split; reflexivity ].

(** C8 (amended).  [main] opens the connection in case-sensitive mode
    (LIKE pragma on, case-sensitive [regexp] function) exactly when the
    flag was given or the query holds an ASCII capital, a character of
    the class [A-Z], and in case-insensitive mode otherwise; nothing
    that runs afterwards changes the mode, whether or not the run ends
    with an exception.  A flag that was given stays on. *)
Theorem main_case_mode (a : args) (st : process) :
  let sensitive :=
    arg_case_sensitive a || bool_decide (Exists capital (chars (arg_query a))) in
  con_case_sensitive_like (main a st).2 = sensitive
  ∧ con_regexp (main a st).2
    = Some (if sensitive then hook_regexp_sensitive else hook_regexp_insensitive).
Proof.
  cbv zeta. rewrite <- (auto_case_sensitive_spec a). unfold main.
  set (a' := auto_case_sensitive a).
  destruct (opendb_run (arg_case_sensitive a') st) as (st1 & Hopen & Hlike & Hre).
  rewrite (run_bind_ok _ _ _ _ _ Hopen).
  match goal with |- context [(?m st1).2] =>
    assert (Hkeep : keeps same_mode m) end.
  { apply (keeps_bind same_mode same_mode_trans).
    - case_decide.
      + apply (keeps_bind same_mode same_mode_trans).
        * apply (keeps_search_by same_mode); mode_rel.
        * intros res. apply keeps_ret, same_mode_refl.
      + apply (keeps_guess_search same_mode); mode_rel.
    - intros entries. apply (keeps_bind same_mode same_mode_trans).
      + apply (keeps_fetch_all same_mode); mode_rel.
      + intros rows. apply (keeps_print_rows same_mode); mode_rel. }
  destruct (Hkeep st1) as [H1 H2]. rewrite H1, H2. auto.
Qed.

(** * Further properties of the program *)

(** ** The searches, row by row *)










(** ** What a search returns *)







(** ** More on the pattern cache *)


(** X7.  Once the case-sensitive function has compiled a pattern, the
    case-insensitive function answers for that pattern with the same
    object: it searches with [re.U] alone, without [re.I]. *)
Theorem regexp_insensitive_after_sensitive
    (pattern field field' : string) (st st1 : process) (b : bool) :
  regexp_store st !! pattern = None →
  regexp_sensitive pattern field st = (Ok b, st1) →
  b = re_search pattern re_U field
  ∧ regexp_insensitive pattern field' st1
    = (Ok (re_search pattern re_U field'), st1).
Proof.
  intros Hnone. unfold regexp_sensitive, regexp_insensitive.
  rewrite run_bind, (get_regex_miss _ _ _ Hnone).
  destruct (re_accepts pattern (Z.lor re_U 0)); [|discriminate].
  cbv beta iota zeta. intros [= <- <-]. split; [reflexivity|].
  rewrite run_bind, (get_regex_hit _ _ _ (Pattern (allocated st) pattern (Z.lor re_U 0)));
    [reflexivity|apply lookup_insert_eq].
Qed.

Lemma get_regex_cache_wf (pattern : string) (flags : Z) st :
  cache_wf st → cache_wf (get_regex pattern flags st).2.
Proof.
  intros Hwf. destruct (regexp_store st !! pattern) as [c|] eqn:Hl.
  - rewrite (get_regex_hit _ _ _ _ Hl). exact Hwf.
  - rewrite (get_regex_miss _ _ _ Hl).
    destruct (re_accepts pattern (Z.lor re_U flags)); [|exact Hwf].
    intros p c. cbn [snd regexp_store allocated with_regexp_store with_allocated].
    destruct (decide (pattern = p)) as [->|Hne].
    + rewrite lookup_insert_eq. intros [= <-]. cbn [obj_pattern obj_id].
      split; [reflexivity|]. split; [lia|].
      intros p' c'. destruct (decide (p = p')) as [->|Hne']; [reflexivity|].
      rewrite lookup_insert_ne by assumption. intros Hc' Hid.
      destruct (Hwf p' c' Hc') as (_ & Hlt & _). lia.
    + rewrite lookup_insert_ne by assumption. intros Hc.
      destruct (Hwf p c Hc) as (Hpat & Hlt & Hinj).
      split; [exact Hpat|]. split; [lia|].
      intros p' c'. destruct (decide (pattern = p')) as [->|Hne'].
      * rewrite lookup_insert_eq. intros [= <-]. cbn [obj_id]. lia.
      * rewrite lookup_insert_ne by assumption. apply Hinj.
Qed.

(** ** Guess search, the other ways out *)

(** X8.  When the searches of the conditions [pre] all come back empty
    and the search of the next condition raises, [guess_search] raises
    the same exception in the state that search ended in, and none of
    the conditions that follow is tried. *)
Theorem guess_search_raises_first_exception
    (pre post : list condition) (c : condition)
    (st st0 st1 : process) (rs : list (list sqlval)) (cls : string) :
  search_each pre st = (Ok rs, st0) →
  Forall (λ r, r = []) rs →
  search_by_kwargs c st0 = (Raise cls, st1) →
  guess_search (pre ++ c :: post) st = (Raise cls, st1).
Proof.
  intros Hpre Hall Hc.
  destruct (guess_search_skips_empty pre (c :: post) st rs st0 Hpre Hall)
    as (Hg & _ & _).
  rewrite Hg. cbn [guess_search]. apply run_bind_raise, Hc.
Qed.

(** X9.  Whatever [guess_search] returns is accounted for: a list it
    returns is never empty and is the result of the search of one of
    the conditions, every condition before that one having come back
    empty; and it returns [None] only when the search of every
    condition came back empty. *)
Theorem guess_search_result_inv
    (conditions : list condition) (st st' : process) (v : pyvalue) :
  guess_search conditions st = (Ok v, st') →
  match v with
  | PyList res =>
      res ≠ [] ∧
      ∃ pre c post rs st0,
        conditions = pre ++ c :: post
        ∧ search_each pre st = (Ok rs, st0) ∧ Forall (λ r, r = []) rs
        ∧ search_by_kwargs c st0 = (Ok res, st')
  | PyNone =>
      ∃ rs, search_each conditions st = (Ok rs, st') ∧ Forall (λ r, r = []) rs
  end.
Proof.
  revert st. induction conditions as [|c rest IH]; intros st.
  - intros [= <- <-]. exists []. split; [reflexivity | constructor].
  - cbn [guess_search]. rewrite run_bind.
    destruct (search_by_kwargs c st) as [[res|cls] st1] eqn:Hc; [|discriminate].
    case_decide as Hlen.
    + intros [= <- <-]. split; [destruct res; [cbn in Hlen; lia | discriminate]|].
      exists [], c, rest, [], st. repeat split; [constructor | exact Hc].
    + assert (res = []) as -> by (destruct res; [reflexivity | cbn in Hlen; lia]).
      intros Hrest. specialize (IH _ Hrest). destruct v as [|l].
      * destruct IH as (rs & Hrs & Hall). exists ([] :: rs).
        split; [|by constructor].
        cbn [search_each]. rewrite (run_bind_ok _ _ _ _ _ Hc).
        rewrite (run_bind_ok _ _ _ _ _ Hrs). reflexivity.
      * destruct IH as (Hne & pre & c' & post & rs & st0 & -> & Hpre & Hall & Hc').
        split; [exact Hne|].
        exists (c :: pre), c', post, ([] :: rs), st0.
        repeat split; [|by constructor|exact Hc'].
        cbn [search_each]. rewrite (run_bind_ok _ _ _ _ _ Hc).
        rewrite (run_bind_ok _ _ _ _ _ Hpre). reflexivity.
Qed.

(** ** Fetching and printing *)





Lemma str_join_texts (sep : string) (l : list string) :
  str_join sep (VText <$> l) = Ok (String.concat sep l).
Proof.
  induction l as [|x l IH]; [reflexivity|].
  destruct l as [|y l]; [reflexivity|].
  change (str_join sep (VText <$> x :: y :: l))
    with (match str_join sep (VText <$> y :: l) with
          | Ok t => Ok (x +:+ sep +:+ t)
          | Raise cls => Raise cls
          end).
  rewrite IH. reflexivity.
Qed.

Lemma str_join_ok_iff (sep : string) (items : list sqlval) :
  (∃ t, str_join sep items = Ok t) ↔ Forall is_text items.
Proof.
  induction items as [|v items IH].
  - split; [constructor | intros _; eexists; reflexivity].
  - destruct v as [z|x].
    + split; [intros [t Ht]; discriminate|].
      intros H. apply Forall_cons in H as [H _]. cbn in H. destruct H.
    + rewrite Forall_cons, <- IH. cbn [str_join is_text].
      destruct items as [|w items].
      * split; [intros _; split; [exact I | eexists; reflexivity]
               | intros _; eexists; reflexivity].
      * destruct (str_join sep (w :: items)) as [t|cls].
        -- split; [intros _; split; [exact I | eexists; reflexivity]
                  | intros _; eexists; reflexivity].
        -- split; [intros [t Ht]; discriminate | intros [_ [t Ht]]; discriminate].
Qed.

Lemma str_join_raise (sep : string) (items : list sqlval) (cls : string) :
  str_join sep items = Raise cls → cls = TypeError.
Proof.
  induction items as [|v items IH]; [discriminate|].
  destruct v as [z|x]; [intros [= <-]; reflexivity|].
  cbn [str_join]. destruct items as [|w items]; [discriminate|].
  destruct (str_join sep (w :: items)) as [t|cls']; [discriminate|].
  intros [= <-]. apply IH. reflexivity.
Qed.

(** X11.  On three lists of texts [format_entry_tsv] returns the
    written forms joined by the full-width semicolon, a tab, the
    readings joined by the full-width semicolon, a tab, and the glosses
    joined by the ASCII semicolon; an empty list gives an empty
    group. *)
Theorem format_entry_tsv_texts (kanjis readings senses : list string) :
  format_entry_tsv (VText <$> kanjis) (VText <$> readings) (VText <$> senses)
  = Ok (String.concat "；" kanjis +:+ tab
        +:+ String.concat "；" readings +:+ tab
        +:+ String.concat ";" senses).
Proof.
  unfold format_entry_tsv. rewrite !str_join_texts. reflexivity.
Qed.

(** X12.  [format_entry_tsv] returns a line exactly when every item of
    the three lists is a text; otherwise the exception it raises is
    [TypeError]. *)
Theorem format_entry_tsv_ok_iff (kanjis readings senses : list sqlval) :
  ((∃ line, format_entry_tsv kanjis readings senses = Ok line)
   ↔ Forall is_text (kanjis ++ readings ++ senses))
  ∧ (∀ cls, format_entry_tsv kanjis readings senses = Raise cls →
            cls = TypeError).
Proof.
  unfold format_entry_tsv. rewrite !Forall_app.
  rewrite <- (str_join_ok_iff "；" kanjis), <- (str_join_ok_iff "；" readings),
    <- (str_join_ok_iff ";" senses).
  destruct (str_join "；" kanjis) as [k|ck] eqn:Hk.
  2:{ split; [split; [intros [? ?]; discriminate
                     | intros ([? ?] & _); discriminate]|].
      intros cls [= <-]. eapply str_join_raise, Hk. }
  destruct (str_join "；" readings) as [r|cr] eqn:Hr.
  2:{ split; [split; [intros [? ?]; discriminate
                     | intros (_ & [? ?] & _); discriminate]|].
      intros cls [= <-]. eapply str_join_raise, Hr. }
  destruct (str_join ";" senses) as [s|cs] eqn:Hs.
  2:{ split; [split; [intros [? ?]; discriminate
                     | intros (_ & _ & [? ?]); discriminate]|].
      intros cls [= <-]. eapply str_join_raise, Hs. }
  split; [|discriminate].
  split; [intros _; repeat split; eexists; reflexivity
         | intros _; eexists; reflexivity].
Qed.

(** ** The whole program *)

Section MainFrame.
Variable R : process → process → Prop.
Hypothesis R_refl : ∀ st, R st st.
Hypothesis R_trans : ∀ a b c, R a b → R b c → R a c.
Hypothesis R_get_regex : ∀ p f, keeps R (get_regex p f).
Hypothesis R_cur_rows : ∀ rows st, R st (with_cur_rows rows st).
Hypothesis R_executed : ∀ log st, R st (with_executed log st).
Hypothesis R_stdout : ∀ out st, R st (with_stdout out st).
Hypothesis R_opendb : ∀ cs, keeps R (opendb cs).

Lemma keeps_main (a : args) : keeps R (main a).
Proof.
  unfold main. apply (keeps_bind R R_trans); [apply R_opendb|]. intros _.
  apply (keeps_bind R R_trans).
  - case_decide.
    + apply (keeps_bind R R_trans).
      * apply (keeps_search_by R); assumption.
      * intros res. apply keeps_ret, R_refl.
    + apply (keeps_guess_search R); assumption.
  - intros entries. apply (keeps_bind R R_trans).
    + apply (keeps_fetch_all R); assumption.
    + intros rows. apply (keeps_print_rows R); assumption.
Qed.

End MainFrame.

(** X13.  A run of [main], however it ends, leaves the dictionary as
    it found it, and every pattern that was in the store is still
    there, as the same object. *)
Theorem main_read_only (a : args) (st : process) :
  db (main a st).2 = db st ∧ store_extends st (main a st).2.
Proof.
  apply (keeps_main read_only).
  - intros s. split; [reflexivity | apply store_extends_refl].
  - intros x y z [H1 H2] [H3 H4].
    split; [congruence | eapply store_extends_trans; eassumption].
  - intros p f s. split; [|apply get_regex_extends].
    destruct (regexp_store s !! p) as [c|] eqn:Hl.
    + rewrite (get_regex_hit _ _ _ _ Hl). reflexivity.
    + rewrite (get_regex_miss _ _ _ Hl).
      destruct (re_accepts p (Z.lor re_U f)); reflexivity.
  - intros rows s. split; [reflexivity | intros p c H; exact H].
  - intros log s. split; [reflexivity | intros p c H; exact H].
  - intros out s. split; [reflexivity | intros p c H; exact H].
  - intros cs s. destruct cs; (split; [reflexivity | intros p c H; exact H]).
Qed.

(** X14.  A run of [main] keeps the pattern store well formed: every
    object is stored under the text it was compiled from, and no object
    is stored under two different texts. *)
Theorem main_keeps_cache_wf (a : args) (st : process) :
  cache_wf st → cache_wf (main a st).2.
Proof.
  apply (keeps_main (λ s s', cache_wf s → cache_wf s')).
  - auto.
  - auto.
  - intros p f s. apply get_regex_cache_wf.
  - intros rows s H. exact H.
  - intros log s H. exact H.
  - intros out s H. exact H.
  - intros cs s H. destruct cs; exact H.
Qed.










End Properties.

(** * The properties at work on the example engine *)

Import Examples.

(** "abc" compiled for the case-sensitive hook, another pattern compiled
    in between, then "abc" asked for with [re.I]: the object of the
    first call comes back, compiled without [re.I]. *)
Lemma get_regex_keyed_by_text_only_witness :
  get_regex "abc" re_I
    (after_calls [("xyz", re_I)]
       (get_regex "abc" 0 (fresh_process Examples.empty_db)).2)
  = (Ok (Pattern 0 "abc" re_U),
     after_calls [("xyz", re_I)]
       (get_regex "abc" 0 (fresh_process Examples.empty_db)).2).
Proof.
  apply (get_regex_keyed_by_text_only "abc" 0 re_I [("xyz", re_I)]
           (fresh_process Examples.empty_db)).
  vm_compute. reflexivity.
Defined.

Lemma get_regex_compiles_with_re_U_witness :
  let st := fresh_process Examples.empty_db in
  let comp := Pattern 0 "abc" 32 in
  regexp_store (get_regex "abc" 0 st).2 !! "abc" = Some comp
  ∧ obj_flags comp = Z.lor re_U 0
  ∧ Z.testbit (obj_flags comp) 5 = true
  ∧ (∀ i, Z.testbit 0 i = true → Z.testbit (obj_flags comp) i = true)
  ∧ (0%Z = 0%Z → obj_flags comp = re_U).
Proof.
  intros st comp.
  apply (get_regex_compiles_with_re_U "abc" 0 st (get_regex "abc" 0 st).2 comp).
  - vm_compute. reflexivity.
  - vm_compute. reflexivity.
Defined.

(** *** Field search *)

(** The field "foo": the error is the interpreter's, for the unassigned
    local, not a dedicated one. *)
Lemma search_by_foo_is_not_UnknownField :
  (search_by "foo" "かみ" false false false false
     (opendb false (fresh_process kami_db)).2).1
  ≠ Raise "UnknownField".
Proof. vm_compute. discriminate. Qed.

Lemma search_by_unknown_field_raises_witness :
  search_by "foo" "かみ" false false false false
    (opendb false (fresh_process kami_db)).2
  = (Raise UnboundLocalError, (opendb false (fresh_process kami_db)).2).
Proof.
  apply (search_by_unknown_field_raises "foo" "かみ" false false false false);
    discriminate.
Defined.

(** Partial and word both on, without regexp: the query goes out bare. *)
Lemma search_by_like_word_drops_wildcards :
  transform_query "cat" true true false ≠ "%" +:+ "cat" +:+ "%".
Proof. vm_compute. discriminate. Qed.

Example search_by_regexp_reading :
  executed (search_by "reading" "かみ" false false true false
              (opendb false (fresh_process kami_db)).2).2
  = [Pragma_case_sensitive_like false;
     Select_join "readings" "reading" "REGEXP" "^かみ$"].
Proof. vm_compute. reflexivity. Qed.

(** *** Guess search *)

(** Written forms: nothing; readings: entries 5 and 9; the glosses,
    which would give entry 1, are never searched. *)
Lemma guess_search_first_non_empty_witness :
  let st := (opendb false (fresh_process kami_db)).2 in
  let st0 := (search_each [kami "kanji"] st).2 in
  let st1 := (search_by_kwargs (kami "reading") st0).2 in
  guess_search ([kami "kanji"] ++ kami "reading" :: [kami "sense"]) st
  = (Ok (PyList [VInt 5; VInt 9]), st1)
  ∧ executed st1
    = executed st ++ omap join_statement ([kami "kanji"] ++ [kami "reading"])
  ∧ length (omap join_statement ([kami "kanji"] ++ [kami "reading"])) = 2.
Proof.
  intros st st0 st1.
  apply (guess_search_first_non_empty [kami "kanji"] [kami "sense"]
           (kami "reading") st st0 st1 [[]] [VInt 5; VInt 9]).
  - vm_compute. reflexivity.
  - repeat constructor.
  - vm_compute. reflexivity.
  - discriminate.
Defined.

Example guess_search_kami_statements :
  executed (guess_search [kami "kanji"; kami "reading"; kami "sense"]
              (opendb false (fresh_process kami_db)).2).2
  = [Pragma_case_sensitive_like false;
     Select_join "kanjis" "kanji" "LIKE" "かみ";
     Select_join "readings" "reading" "LIKE" "かみ"].
Proof. vm_compute. reflexivity. Qed.

Example search_by_sense_kami :
  (search_by_kwargs (kami "sense") (opendb false (fresh_process kami_db)).2).1
  = Ok [VInt 1].
Proof. vm_compute. reflexivity. Qed.

Lemma guess_search_all_empty_returns_None_witness :
  let st := (opendb false (fresh_process kami_db)).2 in
  let conditions := [neko "kanji"; neko "reading"; neko "sense"] in
  let st' := (search_each conditions st).2 in
  guess_search conditions st = (Ok PyNone, st')
  ∧ (guess_search conditions ≫= fetch_all) st = (Raise TypeError, st').
Proof.
  intros st conditions st'.
  apply (guess_search_all_empty_returns_None conditions st st' [[]; []; []]).
  - vm_compute. reflexivity.
  - repeat constructor.
Defined.

(** The whole program on that word, no field chosen: it stops on the
    [TypeError] before printing anything. *)
Example main_guess_no_match :
  (main (Args "guess" false false false false "ねこ") (fresh_process kami_db)).1
  = Raise TypeError.
Proof. vm_compute. reflexivity. Qed.

(** With the field chosen, the same word gives an empty run. *)
Example main_sense_no_match :
  let run := main (Args "sense" false false false false "ねこ")
                  (fresh_process kami_db) in
  run.1 = Ok tt ∧ stdout run.2 = [].
Proof. vm_compute. split; reflexivity. Qed.

(** *** Entry fetcher *)

Lemma fetch_entry_round_trip_witness :
  (fetch_entry (VInt 1464530) (opendb false (fresh_process nihongo_db)).2).1
  = Ok ([VText "日本語"], [VText "にほんご"], [VText "Japanese language"]).
Proof.
  apply (fetch_entry_round_trip 1464530
           (opendb false (fresh_process nihongo_db)).2
           [(1000, "〃")]%Z [] [] [(1000, "おなじ")]%Z
           [(1000, "ditto mark")]%Z []).
  - vm_compute. reflexivity.
  - vm_compute. reflexivity.
  - vm_compute. reflexivity.
  - compute_done.
  - compute_done.
  - compute_done.
Defined.

Example main_prints_nihongo :
  stdout (main (Args "reading" false false false false "にほんご")
               (fresh_process nihongo_db)).2
  = ["日本語" +:+ tab +:+ "にほんご" +:+ tab +:+ "Japanese language"].
Proof. vm_compute. reflexivity. Qed.

(** *** Case mode *)

Example main_Tokyo_is_case_sensitive :
  let st := (main (Args "sense" false false false false "Tokyo")
                  (fresh_process kami_db)).2 in
  con_case_sensitive_like st = true
  ∧ con_regexp st = Some hook_regexp_sensitive.
Proof. vm_compute. split; reflexivity. Qed.

Example main_tokyo_is_case_insensitive :
  let st := (main (Args "sense" false false false false "tokyo")
                  (fresh_process kami_db)).2 in
  con_case_sensitive_like st = false
  ∧ con_regexp st = Some hook_regexp_insensitive.
Proof. vm_compute. split; reflexivity. Qed.

Example main_flag_stays_on :
  let st := (main (Args "sense" true false false false "tokyo")
                  (fresh_process kami_db)).2 in
  con_case_sensitive_like st = true
  ∧ con_regexp st = Some hook_regexp_sensitive.
Proof. vm_compute. split; reflexivity. Qed.

(** É is an uppercase character, but not one of [A-Z]: the query École
    is searched without regard to case. *)
Lemma main_Ecole_is_case_insensitive :
  let st := (main (Args "sense" false false false false "École")
                  (fresh_process kami_db)).2 in
  has_uppercase "École" = true
  ∧ con_case_sensitive_like st = false
  ∧ con_regexp st = Some hook_regexp_insensitive.
Proof. vm_compute. repeat split; reflexivity. Qed.

Example has_uppercase_Tokyo :
  has_uppercase "Tokyo" = true ∧ has_uppercase "tokyo" = false
  ∧ has_uppercase "日本語" = false.
Proof. vm_compute. repeat split; reflexivity. Qed.

(** *** Further properties, on the example dictionary *)


Example search_by_like_reading_kami :
  (search_by "reading" "かみ" false false false false kami_open).1
  = Ok [VInt 5; VInt 9].
Proof. vm_compute. reflexivity. Qed.






Lemma regexp_insensitive_after_sensitive_witness :
  let st1 := (regexp_sensitive "^かみ$" "かみ" kami_open).2 in
  true = re_search "^かみ$" re_U "かみ"
  ∧ regexp_insensitive "^かみ$" "カミ" st1
    = (Ok (re_search "^かみ$" re_U "カミ"), st1).
Proof.
  intros st1.
  apply (regexp_insensitive_after_sensitive "^かみ$" "かみ" "カミ" kami_open st1 true).
  - vm_compute. reflexivity.
  - vm_compute. reflexivity.
Defined.

(** A condition with a field that names no table, between two that do. *)
Lemma guess_search_raises_first_exception_witness :
  let st0 := (search_each [kami "kanji"] kami_open).2 in
  guess_search ([kami "kanji"] ++ kami "foo" :: [kami "sense"]) kami_open
  = (Raise UnboundLocalError, st0).
Proof.
  intros st0.
  apply (guess_search_raises_first_exception [kami "kanji"] [kami "sense"]
           (kami "foo") kami_open st0 st0 [[]] UnboundLocalError).
  - vm_compute. reflexivity.
  - repeat constructor.
  - vm_compute. reflexivity.
Defined.

Lemma guess_search_result_inv_witness :
  let conditions := [kami "kanji"; kami "reading"; kami "sense"] in
  let st' := (guess_search conditions kami_open).2 in
  [VInt 5; VInt 9] ≠ [] ∧
  ∃ pre c post rs st0,
    conditions = pre ++ c :: post
    ∧ search_each pre kami_open = (Ok rs, st0) ∧ Forall (λ r, r = []) rs
    ∧ search_by_kwargs c st0 = (Ok [VInt 5; VInt 9], st').
Proof.
  intros conditions st'.
  apply (guess_search_result_inv conditions kami_open st' (PyList [VInt 5; VInt 9])).
  vm_compute. reflexivity.
Defined.

Lemma format_entry_tsv_ok_iff_witness :
  ((∃ line, format_entry_tsv [VText "紙"] [VInt 5] [] = Ok line)
   ↔ Forall is_text ([VText "紙"] ++ [VInt 5] ++ []))
  ∧ (∀ cls, format_entry_tsv [VText "紙"] [VInt 5] [] = Raise cls →
            cls = TypeError).
Proof. apply (format_entry_tsv_ok_iff [VText "紙"] [VInt 5] []). Defined.

Lemma main_keeps_cache_wf_witness :
  cache_wf (main (Args "reading" false false false true "かみ")
                 (fresh_process kami_db)).2.
Proof.
  apply (main_keeps_cache_wf (Args "reading" false false false true "かみ")
           (fresh_process kami_db)).
  intros p c H. vm_compute in H. discriminate.
Defined.


Example main_reading_kami_prints :
  stdout (main (Args "reading" false false false false "かみ")
               (fresh_process kami_db)).2
  = ["紙" +:+ tab +:+ "かみ" +:+ tab +:+ "paper";
     "神" +:+ tab +:+ "かみ" +:+ tab +:+ "god"].
Proof. vm_compute. reflexivity. Qed.

